(** * CTULib: the optional wrapper, the owned string and the system queries

    A shallow embedding of
    - [Source/Core/Collections/Optional.h]  (the [Optional] template),
    - [Cthulhu/Meta/System.cpp]             (the operating-system queries),
    - [Cthulhu/Core/Collections/CthulhuString.h] (the declarations of
      [String], [CString] and [Utils]; the bodies are defined outside
      these files and are modelled from the specification where a
      property needs them).

    Bytes are [ascii]; a raw [char*] buffer is a [list ascii]; the
    fixed-width integers [U32], [U64] and [I64] are [Z] with the
    wrap-around written out. *)

From Stdlib Require Import List Ascii ZArith NArith Arith Bool Lia.
From Stdlib Require Strings.String.
Import String.StringSyntax.
Delimit Scope string_scope with string.
From Equations Require Import Equations.
From Equations.Prop Require Import Logic.
Import ListNotations.

Local Open Scope list_scope.

Module Cthulhu.

(** ** Optional.h *)

Section OptionalTemplate.

Variable T : Type.

(** [template<typename T> class Optional { T Content; bool IsValid; }] *)
Record Optional : Type := MkOptional {
  Content : T;
  IsValid : bool
}.

(** [Optional(T InContent) : Content(InContent), IsValid(true) {}] *)
Definition Optional_value (InContent : T) : Optional :=
  {| Content := InContent; IsValid := true |}.

(** [Optional() : IsValid(false) {}].  The member [Content] is only
    default-initialised; [uninit] stands for whatever that leaves in it. *)
Definition Optional_empty (uninit : T) : Optional :=
  {| Content := uninit; IsValid := false |}.

(** [T Or(T Other) const { return (IsValid) ? Content : Other; }] *)
Definition Or (o : Optional) (Other : T) : T :=
  if IsValid o then Content o else Other.

(** [operator bool() const { return IsValid; }] *)
Definition operator_bool (o : Optional) : bool := IsValid o.

(** [bool Valid() const { return IsValid; }] *)
Definition Valid (o : Optional) : bool := IsValid o.

(** [template<typename T> Optional<T> NullOpt() { return Optional<T>(); }] *)
Definition NullOpt (uninit : T) : Optional := Optional_empty uninit.

End OptionalTemplate.

Arguments MkOptional {T} Content IsValid.
Arguments Content {T} o.
Arguments IsValid {T} o.
Arguments Optional_value {T} InContent.
Arguments Optional_empty {T} uninit.
Arguments Or {T} o Other.
Arguments operator_bool {T} o.
Arguments Valid {T} o.
Arguments NullOpt {T} uninit.

(** The [Cthulhu] tree names the same wrapper [Option<T>], built by
    [Some(value)] and [None<T>()]; its header is not among the sources.

    Modelled from the spec: the [Option] header, "constructed present or
    absent", with the interface of [Optional] above. *)
Definition Option_Some {T : Type} (value : T) : Optional T := Optional_value value.

Definition Option_None {T : Type} (uninit : T) : Optional T := NullOpt uninit.

(** ** Fixed-width integers ([Meta/Aliases.h]) *)

Definition to_U32 (z : Z) : Z := z mod 2 ^ 32.

Definition to_U64 (z : Z) : Z := z mod 2 ^ 64.

(** Two's-complement reduction into the range of [I64]. *)
Definition to_I64 (z : Z) : Z := (z + 2 ^ 63) mod 2 ^ 64 - 2 ^ 63.

Definition I64_MIN : Z := - 2 ^ 63.

Definition I64_MAX : Z := 2 ^ 63 - 1.

(** Conversion of an [int] to [bool]: every value but zero is [true]. *)
Definition bool_of_int (z : Z) : bool := negb (z =? 0)%Z.

(** ** Raw buffers *)

Definition NUL : ascii := "000"%char.

(** String literals of the source, as byte lists. *)
Definition lit (s : String.string) : list ascii := String.list_ascii_of_string s.

Arguments lit s%_string.

(** What a reader of a [const char*] sees: the bytes before the first
    sentinel (all of them when the buffer holds none). *)
Fixpoint cstring (buf : list ascii) : list ascii :=
  match buf with
  | [] => []
  | c :: rest => if Ascii.eqb c NUL then [] else c :: cstring rest
  end.

(** A buffer holds no sentinel. *)
Definition NulFree (bytes : list ascii) : Prop := ~ In NUL bytes.

(** ** The owned string ([CthulhuString.h])

    [struct String { ... private: char* Real; U32 Length{0}; }].
    An absent buffer is the empty list.  The header caches the length in
    a [U32]; the model keeps the count of content bytes itself. *)
Record String : Type := MkString {
  Real : list ascii;
  Length : nat
}.

(** [U32 Len() const] *)
Definition Len (s : String) : nat := Length s.

(** [char* operator*() const] and [char* CStr() const]. *)
Definition CStr (s : String) : list ascii := Real s.

(** The content bytes: the first [Length] bytes of the buffer. *)
Definition content (s : String) : list ascii := firstn (Length s) (Real s).

(** Invariant 1 of the data model: a string of length zero may have no
    buffer; otherwise the buffer has [Length + 1] bytes, the sentinel at
    offset [Length] and at no earlier offset. *)
Definition Invariant (s : String) : Prop :=
  (Length s = 0 /\ Real s = []) \/
  (exists bytes : list ascii, Real s = bytes ++ [NUL] /\ length bytes = Length s /\ NulFree bytes).

(** [String()]: length zero, no buffer. *)
Definition String_empty : String := {| Real := []; Length := 0 |}.

(** A freshly allocated, sentinel-terminated buffer owning [bytes]. *)
Definition String_owning (bytes : list ascii) : String :=
  {| Real := bytes ++ [NUL]; Length := length bytes |}.

(** Modelled from the spec: the body of [String(const char* Content)],
    "construct from an externally owned sentinel-terminated buffer (the
    buffer's bytes are duplicated into a freshly owned allocation)". *)
Definition String_of_cstr (Content : list ascii) : String :=
  String_owning (cstring Content).

(** Modelled from the spec: the body of [Append] / [operator+=], "append
    operations allocate a new buffer sized to the new combined length plus
    one sentinel byte, copy the old content and the new content into it,
    write the sentinel, and release the previous buffer". *)
Definition Append (s Other : String) : String :=
  {| Real := firstn (Length s) (Real s) ++ firstn (Length Other) (Real Other) ++ [NUL];
     Length := Length s + Length Other |}.

(** Modelled from the spec: the body of [operator+], which leaves both
    operands alone and returns the appended copy of the left one (copying
    is a deep copy of the buffer, the identity on values). *)
Definition operator_plus (s Other : String) : String := Append s Other.

(** Modelled from the spec: the body of [Equals] / [operator==], "compares
    content byte-for-byte (length mismatch short-circuits to unequal)". *)
Definition Equals (s Other : String) : bool :=
  (Length s =? Length Other) &&
  (if list_eq_dec ascii_dec (content s) (content Other) then true else false).

(** Modelled from the spec: the body of [Utils::IsNum], a decimal digit. *)
Definition IsNum (C : ascii) : bool :=
  (48 <=? nat_of_ascii C) && (nat_of_ascii C <=? 57).

(** The value of a decimal digit character. *)
Definition digit_value (C : ascii) : nat := nat_of_ascii C - 48.

(** ** Positional formatting

    State of the single left-to-right pass of [ArrayFormat]: copying
    literal text, or inside a placeholder whose raw text so far is [raw]
    and whose index digits so far denote [index]. *)
Inductive FormatState : Type :=
| Literal
| Placeholder (raw : list ascii) (index : option nat).

(** Modelled from the spec: the body of [String::ArrayFormat], "the
    receiver contains placeholders of the literal form [{i}] where [i] is a
    non-negative integer; each placeholder is replaced by the string at
    ordinal position [i]"; the scan is "single-pass left-to-right, copying
    literal runs verbatim", and malformed placeholder syntax "is copied
    literally".  An index past the arguments is left literal, one of the
    two choices the spec allows. *)
Fixpoint format_scan (Args : list String) (st : FormatState) (cs : list ascii)
  : list ascii :=
  match cs with
  | [] => match st with Literal => [] | Placeholder raw _ => raw end
  | c :: rest =>
      match st with
      | Literal =>
          if Ascii.eqb c "{" then format_scan Args (Placeholder [c] None) rest
          else c :: format_scan Args Literal rest
      | Placeholder raw index =>
          if IsNum c then
            let sofar := match index with Some i => i | None => 0 end in
            format_scan Args (Placeholder (raw ++ [c]) (Some (10 * sofar + digit_value c))) rest
          else if Ascii.eqb c "}" then
            match index with
            | Some i =>
                match nth_error Args i with
                | Some arg => content arg ++ format_scan Args Literal rest
                | None => raw ++ c :: format_scan Args Literal rest
                end
            | None => raw ++ c :: format_scan Args Literal rest
            end
          else if Ascii.eqb c "{" then raw ++ format_scan Args (Placeholder [c] None) rest
          else raw ++ c :: format_scan Args Literal rest
      end
  end.

Definition ArrayFormat (s : String) (Args : list String) : String :=
  String_owning (format_scan Args Literal (content s)).

(** ** System.cpp *)

(** The [sysconf] names the file asks for. *)
Inductive sysconf_name : Type :=
| _SC_NPROCESSORS_ONLN
| _SC_PHYS_PAGES
| _SC_PAGE_SIZE.

(** What the two builds of [TotalRam] read from the operating system:
    [sysconf] (a [long] per name) without [OS_WINDOWS], the field
    [ullTotalPhys] filled by [GlobalMemoryStatusEx] with it. *)
Inductive Platform : Type :=
| Posix (sysconf : sysconf_name -> Z)
| Windows (ullTotalPhys : Z).

(** [U32 CoreCount() { return sysconf(_SC_NPROCESSORS_ONLN); }] *)
Definition CoreCount (sysconf : sysconf_name -> Z) : Z :=
  to_U32 (sysconf _SC_NPROCESSORS_ONLN).

(** [U64 TotalRam()]:
    [const U32 Pages = sysconf(_SC_PHYS_PAGES), PageSize = sysconf(_SC_PAGE_SIZE);
     return Pages * PageSize;]
    The product of two [U32] is a [U32]; it is widened to [U64] only on
    return. *)
Definition TotalRam (os : Platform) : Z :=
  match os with
  | Posix sysconf =>
      let Pages := to_U32 (sysconf _SC_PHYS_PAGES) in
      let PageSize := to_U32 (sysconf _SC_PAGE_SIZE) in
      to_U64 (to_U32 (Pages * PageSize))
  | Windows ullTotalPhys => to_U64 ullTotalPhys
  end.

(** [bool FunctionExists(const String& Name)]:
    [Array<String> Temp = { *Name };
     return system( *String("which {0} > /dev/null 2>&1").ArrayFormat(Temp));]
    [system] maps the command line it is handed to the [int] it returns. *)
Definition FunctionExists (system : list ascii -> Z) (Name : String) : bool :=
  let Temp := [String_of_cstr (CStr Name)] in
  bool_of_int
    (system (cstring (CStr (ArrayFormat (String_of_cstr (lit "which {0} > /dev/null 2>&1")) Temp)))).

Definition newline : ascii := "010"%char.

(** [fgets] stores bytes while there is room, and stops after a newline
    or at the end of the stream: the bytes stored and the stream left. *)
Fixpoint fgets_read (room : nat) (stream : list ascii) : list ascii * list ascii :=
  match room, stream with
  | S room', c :: rest =>
      if Ascii.eqb c newline then ([c], rest)
      else let (line, rest') := fgets_read room' rest in (c :: line, rest')
  | _, _ => ([], stream)
  end.

(** [fgets(buf, size, stream)]: [None] is the null pointer returned at the
    end of the stream; otherwise the buffer (at most [size - 1] bytes and
    the sentinel written after them) and the stream left. *)
Definition fgets (size : nat) (stream : list ascii) : option (list ascii * list ascii) :=
  match stream with
  | [] => None
  | _ :: _ =>
      let (line, rest) := fgets_read (size - 1) stream in
      Some (line ++ [NUL], rest)
  end.

Lemma fgets_read_length (room : nat) (stream : list ascii) :
  length (snd (fgets_read room stream)) + length (fst (fgets_read room stream))
  = length stream.
Proof.
  revert stream; induction room as [|room IH]; intros [|c rest]; simpl; try lia.
  destruct (Ascii.eqb c newline); simpl; [lia|].
  specialize (IH rest). destruct (fgets_read room rest); simpl in *. lia.
Qed.

Lemma fgets_consumes (size : nat) (stream C rest : list ascii) :
  2 <= size -> fgets size stream = Some (C, rest) -> length rest < length stream.
Proof.
  intros Hsize. unfold fgets. destruct stream as [|c tl]; [discriminate|].
  destruct size as [|[|room]]; try lia. simpl.
  destruct (Ascii.eqb c newline).
  - intros [= <- <-]. simpl. lia.
  - pose proof (fgets_read_length room tl) as Hlen.
    destruct (fgets_read room tl); simpl in *.
    intros [= <- <-]. lia.
Qed.

(** The loop of [Exec]:
    [char C[64]; while(fgets(C, sizeof(C), Temp) != nullptr) { Ret += C; }] *)
Equations? Exec_loop (Temp : list ascii) (Ret : String) : String
  by wf (length Temp) lt :=
  Exec_loop Temp Ret with inspect (fgets 64 Temp) := {
    | exist _ None _ => Ret
    | exist _ (Some (C, Temp')) Hread => Exec_loop Temp' (Append Ret (String_of_cstr C)) }.
Proof. eapply fgets_consumes; [|exact Hread]. lia. Qed.

(** [String Exec(const String& Command)]:
    [FILE* Temp = popen( *Command, "r"); String Ret; ...loop...; pclose(Temp); return Ret;]
    [popen] maps a command line to the bytes the command writes to its
    standard output, or to [None] for the null pointer; the source hands
    that pointer to [fgets] unchecked, which is undefined: [None]. *)
Definition Exec (popen : list ascii -> option (list ascii)) (Command : String)
  : option String :=
  match popen (cstring (CStr Command)) with
  | Some Temp => Some (Exec_loop Temp String_empty)
  | None => None
  end.

(** [getcwd(buf, size)]: [cwd] is the path of the working directory, or
    [None] when the process cannot read it.  The call fails too when the
    path and its sentinel do not fit in [size] bytes ([ERANGE]); on success
    the buffer starts with the path and its sentinel. *)
Definition getcwd (cwd : option (list ascii)) (size : nat) : option (list ascii) :=
  match cwd with
  | None => None
  | Some path => if length path + 1 <=? size then Some (path ++ [NUL]) else None
  end.

(** [Option<String> CurrentDirectory()]:
    [char* Path = new char[1024];
     if(getcwd(Path, 1024) != nullptr) { String Temp = Path; delete[] Path; return Some(Temp); }
     else { delete[] Path; return None<String>(); }] *)
Definition CurrentDirectory (cwd : option (list ascii)) : Optional String :=
  match getcwd cwd 1024 with
  | Some Path => let Temp := String_of_cstr Path in Option_Some Temp
  | None => Option_None String_empty
  end.

(** ** The numeric lexer and formatter ([Utils], bodies not in the sources) *)

(** Digits of the three radixes the lexer reads. *)
Definition dec_digit (C : ascii) : option Z :=
  if IsNum C then Some (Z.of_nat (digit_value C)) else None.

Definition bit_digit (C : ascii) : option Z :=
  if Ascii.eqb C "0" then Some 0%Z
  else if Ascii.eqb C "1" then Some 1%Z
  else None.

(** The hexadecimal digit set: the decimal digits and the letters [A] to
    [F].  The lower-case letters are no part of it: the specification has
    the text ["12a"] absent from every lexer, [ParseHex] included. *)
Definition hex_digit (C : ascii) : option Z :=
  let n := nat_of_ascii C in
  if IsNum C then Some (Z.of_nat (n - 48))
  else if (65 <=? n) && (n <=? 70) then Some (Z.of_nat (n - 65 + 10))
  else None.

(** One left-to-right scan of a run of digits, most significant first;
    the first byte that is no digit ends it with no result. *)
Fixpoint scan_digits (digit : ascii -> option Z) (radix acc : Z) (cs : list ascii)
  : option Z :=
  match cs with
  | [] => Some acc
  | c :: rest =>
      match digit c with
      | Some d => scan_digits digit radix (acc * radix + d) rest
      | None => None
      end
  end.

(** A run of at least one digit. *)
Definition scan_number (digit : ascii -> option Z) (radix : Z) (cs : list ascii)
  : option Z :=
  match cs with
  | [] => None
  | _ :: _ => scan_digits digit radix 0 cs
  end.

(** The result of a lexer as the [Option] it returns; [uninit] is the
    content the absent result is left with, which no operation of the
    wrapper hands out. *)
Definition Option_of {T : Type} (uninit : T) (r : option T) : Optional T :=
  match r with
  | Some value => Option_Some value
  | None => Option_None uninit
  end.

(** Modelled from the spec: the body of [Utils::ParseInt], "decimal digits
    with optional leading sign", "absent on any character outside the
    grammar, at any position, including empty input".  The decoded value is
    carried as an [I64]. *)
Definition ParseInt_chars (cs : list ascii) : option Z :=
  match cs with
  | [] => None
  | c :: rest =>
      if Ascii.eqb c "-" then option_map Z.opp (scan_number dec_digit 10 rest)
      else if Ascii.eqb c "+" then scan_number dec_digit 10 rest
      else scan_number dec_digit 10 cs
  end.

Definition ParseInt (Text : String) : Optional Z :=
  Option_of 0%Z (option_map to_I64 (ParseInt_chars (content Text))).

(** Modelled from the spec: the body of [Utils::ParseBits], "[0]/[1] runs". *)
Definition ParseBits (Text : String) : Optional Z :=
  Option_of 0%Z (option_map to_I64 (scan_number bit_digit 2 (content Text))).

(** Modelled from the spec: the body of [Utils::ParseHex], "hexadecimal
    digit set", with ["12a"] among the malformed inputs that yield "absent
    for every [Parse*] function". *)
Definition ParseHex (Text : String) : Optional Z :=
  Option_of 0%Z (option_map to_I64 (scan_number hex_digit 16 (content Text))).

(** A decimal numeral read by [ParseFloat]: [mantissa / 10 ^ scale].  The
    rounding to [float] is not part of the model. *)
Record Decimal : Type := MkDecimal {
  mantissa : Z;
  scale : nat
}.

Definition Decimal_opp (d : Decimal) : Decimal :=
  {| mantissa := - mantissa d; scale := scale d |}.

(** The scan of [ParseFloat] after the sign: digits and at most one
    decimal point, at least one digit in all. *)
Fixpoint scan_float (m : Z) (sc : nat) (seen_point seen_digit : bool) (cs : list ascii)
  : option Decimal :=
  match cs with
  | [] => if seen_digit then Some {| mantissa := m; scale := sc |} else None
  | c :: rest =>
      if IsNum c then
        scan_float (m * 10 + Z.of_nat (digit_value c)) (if seen_point then S sc else sc)
                   seen_point true rest
      else if Ascii.eqb c "." then
        if seen_point then None else scan_float m sc true seen_digit rest
      else None
  end.

(** Modelled from the spec: the body of [Utils::ParseFloat], "decimal-point
    float grammar".  The spec fixes the alphabet, not the exact shape; the
    model reads the widest one (optional sign, digits, at most one point). *)
Definition ParseFloat_chars (cs : list ascii) : option Decimal :=
  match cs with
  | [] => None
  | c :: rest =>
      if Ascii.eqb c "-" then option_map Decimal_opp (scan_float 0 0 false false rest)
      else if Ascii.eqb c "+" then scan_float 0 0 false false rest
      else scan_float 0 0 false false cs
  end.

Definition ParseFloat (Text : String) : Optional Decimal :=
  Option_of {| mantissa := 0; scale := 0 |} (ParseFloat_chars (content Text)).

(** Modelled from the spec: the body of [Utils::ParseBool], "the literal
    tokens for true/false". *)
Definition ParseBool (Text : String) : Optional bool :=
  Option_of false
    (if list_eq_dec ascii_dec (content Text) (lit "true") then Some true
     else if list_eq_dec ascii_dec (content Text) (lit "false") then Some false
     else None).

(** The five lexers and the bytes each grammar is written with. *)
Inductive Lexer : Type := LexInt | LexBits | LexHex | LexFloat | LexBool.

Definition is_sign (C : ascii) : bool := Ascii.eqb C "-" || Ascii.eqb C "+".

Definition in_grammar (p : Lexer) (C : ascii) : bool :=
  match p with
  | LexInt => IsNum C || is_sign C
  | LexBits => Ascii.eqb C "0" || Ascii.eqb C "1"
  | LexHex => match hex_digit C with Some _ => true | None => false end
  | LexFloat => IsNum C || is_sign C || Ascii.eqb C "."
  | LexBool => existsb (Ascii.eqb C) (lit "truefalse")
  end.

(** Whether a lexer hands back a present result ([Valid()]). *)
Definition parses (p : Lexer) (Text : String) : bool :=
  match p with
  | LexInt => Valid (ParseInt Text)
  | LexBits => Valid (ParseBits Text)
  | LexHex => Valid (ParseHex Text)
  | LexFloat => Valid (ParseFloat Text)
  | LexBool => Valid (ParseBool Text)
  end.

Definition digit_char (d : N) : ascii := ascii_of_N (48 + d).

(** The decimal digits of a natural number, most significant first.
    [bits] bounds the number of binary digits of [n], hence of decimal
    ones: the recursion stops at a number below ten before it runs out. *)
Fixpoint render_digits_upto (bits : nat) (n : N) : list ascii :=
  match bits with
  | O => [digit_char n]
  | S bits' =>
      if (n <? 10)%N then [digit_char n]
      else render_digits_upto bits' (n / 10) ++ [digit_char (n mod 10)]
  end.

Definition render_digits (n : N) : list ascii :=
  render_digits_upto (N.size_nat n) n.

(** Modelled from the spec: the body of [Utils::ToString(I64 Num)], which
    "render[s] the reverse direction" of [ParseInt]: a minus sign for a
    negative number, then the decimal digits of its magnitude. *)
Definition ToString (Num : Z) : String :=
  String_owning
    (if (Num <? 0)%Z then "-"%char :: render_digits (Z.to_N (- Num))
     else render_digits (Z.to_N Num)).

(** ** Machines the properties are evaluated on *)

(** A machine with 4 GiB of memory in 4 KiB pages. *)
Definition sysconf_4GiB (name : sysconf_name) : Z :=
  match name with
  | _SC_NPROCESSORS_ONLN => 4
  | _SC_PHYS_PAGES => 1048576
  | _SC_PAGE_SIZE => 4096
  end.

(** A machine on which [ls] is the one command on the search path: the
    status [system] returns for a command line. *)
Definition system_with_ls (command : list ascii) : Z :=
  if list_eq_dec ascii_dec command (lit "which ls > /dev/null 2>&1") then 0%Z
  else 256%Z.

(** The command name [ls]. *)
Definition ls : String := String_of_cstr (lit "ls").

(** Three strings to concatenate. *)
Definition hello : String := String_of_cstr (lit "hello").

Definition blank : String := String_of_cstr (lit " ").

Definition world : String := String_of_cstr (lit "world").

(** A working directory that fits the buffer of [CurrentDirectory], and
    a path of 1024 bytes, which with its sentinel does not. *)
Definition home_user : option (list ascii) := Some (lit "/home/user").

Definition long_path : list ascii := "/"%char :: repeat "d"%char 1023.

(** A command line and the machine that runs it: [echo hi] writes [hi]
    and a newline. *)
Definition echo_hi : String := String_of_cstr (lit "echo hi").

Definition popen_echo (command : list ascii) : option (list ascii) :=
  if list_eq_dec ascii_dec command (lit "echo hi") then Some (lit "hi" ++ [newline])
  else None.

(** A command that writes the three bytes [A], zero, [B]. *)
Definition dump : String := String_of_cstr (lit "printf 'A\0B'").

Definition popen_binary (command : list ascii) : option (list ascii) :=
  if list_eq_dec ascii_dec command (lit "printf 'A\0B'")
  then Some ["A"%char; NUL; "B"%char]
  else None.

(** A machine with two commands: the first writes the line [a] and then
    [b], the second writes [b] alone. *)
Definition print_a_b : String := String_of_cstr (lit "printf 'a\nb'").

Definition print_b : String := String_of_cstr (lit "printf b").

Definition popen_lines (command : list ascii) : option (list ascii) :=
  if list_eq_dec ascii_dec command (lit "printf 'a\nb'")
  then Some (lit "a" ++ newline :: lit "b")
  else if list_eq_dec ascii_dec command (lit "printf b") then Some (lit "b")
  else None.

(** A machine with 1 GiB of memory in 4 KiB pages and two cores. *)
Definition sysconf_1GiB (name : sysconf_name) : Z :=
  match name with
  | _SC_NPROCESSORS_ONLN => 2
  | _SC_PHYS_PAGES => 262144
  | _SC_PAGE_SIZE => 4096
  end.

(** * Properties *)

(** ** Optional *)

(** C4: for every type [T], value [v] and default [d], [Optional(v).Or(d)]
    returns [v], and an absent optional ([Optional()] or [NullOpt<T>()],
    whatever its unset content) has [Or(d)] return [d]. *)
Theorem Or_present_absent (T : Type) (v d uninit : T) :
  Or (Optional_value v) d = v /\
  Or (Optional_empty uninit) d = d /\
  Or (NullOpt uninit) d = d.
Proof. repeat split. Qed.

(** C5: an optional built with a value is [Valid()] and converts to
    [true]; one built absent ([Optional()] or [NullOpt<T>()]) is not valid
    and converts to [false]; on every optional [Valid()] and the boolean
    conversion agree. *)
Theorem Valid_and_bool_conversion (T : Type) (v uninit : T) (o : Optional T) :
  (Valid (Optional_value v) = true /\ operator_bool (Optional_value v) = true) /\
  (Valid (Optional_empty uninit) = false /\ operator_bool (Optional_empty uninit) = false) /\
  (Valid (NullOpt uninit) = false /\ operator_bool (NullOpt uninit) = false) /\
  Valid o = operator_bool o.
Proof. repeat split. Qed.

(** ** Buffers and strings *)

Lemma cstring_terminated (bytes rest : list ascii) :
  NulFree bytes -> cstring (bytes ++ NUL :: rest) = bytes.
Proof.
  unfold NulFree. induction bytes as [|c bytes IH]; simpl; intros Hfree.
  - reflexivity.
  - destruct (Ascii.eqb_spec c NUL) as [->|_].
    + exfalso. apply Hfree. now left.
    + f_equal. apply IH. intros Hin. apply Hfree. now right.
Qed.

Lemma cstring_NulFree (buf : list ascii) : NulFree (cstring buf).
Proof.
  unfold NulFree. induction buf as [|c buf IH]; simpl; [tauto|].
  destruct (Ascii.eqb_spec c NUL) as [->|Hc]; simpl; [tauto|].
  intros [Heq|Hin]; [now apply Hc | now apply IH].
Qed.

Lemma NulFree_app (l1 l2 : list ascii) :
  NulFree (l1 ++ l2) <-> NulFree l1 /\ NulFree l2.
Proof.
  unfold NulFree. rewrite in_app_iff. tauto.
Qed.

Lemma firstn_exact {A : Type} (l rest : list A) : firstn (length l) (l ++ rest) = l.
Proof.
  rewrite firstn_app, Nat.sub_diag, firstn_all. simpl. apply app_nil_r.
Qed.

Lemma content_String_owning (bytes : list ascii) : content (String_owning bytes) = bytes.
Proof. unfold content, String_owning; simpl. apply firstn_exact. Qed.

Lemma Invariant_String_owning (bytes : list ascii) :
  NulFree bytes -> Invariant (String_owning bytes).
Proof. intros Hfree. right. exists bytes. now repeat split. Qed.

Lemma Invariant_String_of_cstr (buf : list ascii) : Invariant (String_of_cstr buf).
Proof. apply Invariant_String_owning, cstring_NulFree. Qed.

Lemma Invariant_String_empty : Invariant String_empty.
Proof. left. now split. Qed.

(** Under the invariant the content has the cached length, holds no
    sentinel, and is what a reader of the buffer sees. *)
Lemma Invariant_content (s : String) :
  Invariant s ->
  length (content s) = Length s /\ NulFree (content s) /\ cstring (CStr s) = content s.
Proof.
  unfold content, CStr.
  intros [[Hlen Hreal]|[bytes [Hreal [Hlen Hfree]]]]; rewrite Hreal.
  - rewrite Hlen. simpl. repeat split. unfold NulFree. simpl. tauto.
  - rewrite <- Hlen, firstn_exact. repeat split; [assumption|].
    now apply cstring_terminated.
Qed.

Lemma Append_owning (s Other : String) :
  Invariant s -> Invariant Other ->
  Append s Other = String_owning (content s ++ content Other).
Proof.
  intros Hs Ho.
  destruct (Invariant_content s Hs) as [Hls _], (Invariant_content Other Ho) as [Hlo _].
  unfold Append, String_owning. fold (content s) (content Other).
  rewrite length_app, Hls, Hlo, <- app_assoc. reflexivity.
Qed.

Lemma Invariant_Append (s Other : String) :
  Invariant s -> Invariant Other -> Invariant (Append s Other).
Proof.
  intros Hs Ho. rewrite Append_owning by assumption.
  apply Invariant_String_owning, NulFree_app.
  split; [apply (Invariant_content s Hs) | apply (Invariant_content Other Ho)].
Qed.

Lemma content_Append (s Other : String) :
  Invariant s -> Invariant Other ->
  content (Append s Other) = content s ++ content Other.
Proof.
  intros Hs Ho. rewrite Append_owning by assumption. apply content_String_owning.
Qed.

Lemma Equals_refl (s : String) : Equals s s = true.
Proof.
  unfold Equals. rewrite Nat.eqb_refl. simpl.
  destruct (list_eq_dec ascii_dec (content s) (content s)); congruence.
Qed.

(** The scenarios of the specification. *)
Example hello_world :
  content (operator_plus (String_of_cstr (lit "hello")) (String_of_cstr (lit " world")))
  = lit "hello world" /\
  Len (operator_plus (String_of_cstr (lit "hello")) (String_of_cstr (lit " world"))) = 11.
Proof. split; reflexivity. Qed.

Example ArrayFormat_value :
  content (ArrayFormat (String_of_cstr (lit "Value: {0}")) [String_of_cstr (lit "42")])
  = lit "Value: 42".
Proof. reflexivity. Qed.

(** C9: concatenation is associative, [(a + b) + c] and [a + (b + c)]
    are the same string, with the same content byte for byte, and
    [Len(a + b) = Len(a) + Len(b)], for all strings that satisfy the
    invariant of the data model. *)
Theorem operator_plus_assoc_Len (a b c : String) :
  Invariant a -> Invariant b -> Invariant c ->
  operator_plus (operator_plus a b) c = operator_plus a (operator_plus b c) /\
  content (operator_plus (operator_plus a b) c)
    = content (operator_plus a (operator_plus b c)) /\
  Equals (operator_plus (operator_plus a b) c)
         (operator_plus a (operator_plus b c)) = true /\
  Len (operator_plus a b) = Len a + Len b.
Proof.
  intros Ha Hb Hc. unfold operator_plus.
  assert (Heq : Append (Append a b) c = Append a (Append b c)).
  { rewrite (Append_owning _ _ (Invariant_Append a b Ha Hb) Hc).
    rewrite (Append_owning _ _ Ha (Invariant_Append b c Hb Hc)).
    rewrite !content_Append by assumption.
    now rewrite app_assoc. }
  rewrite Heq. repeat split. apply Equals_refl.
Qed.

Lemma operator_plus_assoc_Len_witness :
  (Invariant hello /\ Invariant blank /\ Invariant world) /\
  (operator_plus (operator_plus hello blank) world
     = operator_plus hello (operator_plus blank world) /\
   content (operator_plus (operator_plus hello blank) world)
     = content (operator_plus hello (operator_plus blank world)) /\
   Equals (operator_plus (operator_plus hello blank) world)
          (operator_plus hello (operator_plus blank world)) = true /\
   Len (operator_plus hello blank) = Len hello + Len blank).
Proof.
  assert (Ha : Invariant hello) by apply Invariant_String_of_cstr.
  assert (Hb : Invariant blank) by apply Invariant_String_of_cstr.
  assert (Hc : Invariant world) by apply Invariant_String_of_cstr.
  split; [now repeat split|].
  exact (operator_plus_assoc_Len hello blank world Ha Hb Hc).
Defined.

(** ** System queries *)

(** What [TotalRam] computes without [OS_WINDOWS]: the product of the two
    [sysconf] answers modulo [2 ^ 32]. *)
Lemma TotalRam_Posix (sysconf : sysconf_name -> Z) :
  TotalRam (Posix sysconf)
  = ((sysconf _SC_PHYS_PAGES * sysconf _SC_PAGE_SIZE) mod 2 ^ 32)%Z.
Proof.
  unfold TotalRam, to_U64, to_U32.
  rewrite <- Z.mul_mod by lia.
  apply Z.mod_small.
  pose proof (Z.mod_pos_bound (sysconf _SC_PHYS_PAGES * sysconf _SC_PAGE_SIZE) (2 ^ 32)).
  lia.
Qed.

(** C2: [TotalRam] is to return the exact product of the page count and
    the page size; on a machine with [1048576] pages of [4096] bytes the
    product is [4294967296] and the code returns [0]. *)
Theorem TotalRam_4GiB_wraps :
  (sysconf_4GiB _SC_PHYS_PAGES * sysconf_4GiB _SC_PAGE_SIZE = 4294967296)%Z /\
  TotalRam (Posix sysconf_4GiB) = 0%Z.
Proof. split; reflexivity. Qed.

(** The product is returned exactly as long as it fits in 32 bits. *)
Lemma TotalRam_exact_below_4GiB (sysconf : sysconf_name -> Z) :
  (0 <= sysconf _SC_PHYS_PAGES * sysconf _SC_PAGE_SIZE < 2 ^ 32)%Z ->
  TotalRam (Posix sysconf) = (sysconf _SC_PHYS_PAGES * sysconf _SC_PAGE_SIZE)%Z.
Proof. intros Hfit. rewrite TotalRam_Posix. now apply Z.mod_small. Qed.

Lemma FunctionExists_command (system : list ascii -> Z) (Name : String) :
  Invariant Name ->
  FunctionExists system Name
  = bool_of_int (system (lit "which " ++ content Name ++ lit " > /dev/null 2>&1")).
Proof.
  intros HName. unfold FunctionExists.
  destruct (Invariant_content Name HName) as [_ [Hfree Hview]].
  unfold ArrayFormat, String_of_cstr. rewrite Hview, !content_String_owning.
  simpl. rewrite content_String_owning, cstring_terminated; [reflexivity|].
  apply NulFree_app. split; [assumption|].
  unfold NulFree. simpl. intuition discriminate.
Qed.

(** C1: [FunctionExists(Name)] is to return [true] exactly when the
    command exists.  [which] leaves the status [0] exactly when it finds
    the command ([found]), and [system] returns that status; the code
    converts the status itself to [bool], so it answers [false] for a
    command that exists and [true] for one that does not. *)
Theorem FunctionExists_inverted
    (system : list ascii -> Z) (Name : String) (found : bool) :
  Invariant Name ->
  (system (lit "which " ++ content Name ++ lit " > /dev/null 2>&1") = 0%Z
   <-> found = true) ->
  FunctionExists system Name = negb found.
Proof.
  intros HName Hwhich. rewrite FunctionExists_command by assumption.
  unfold bool_of_int. f_equal.
  destruct found.
  - apply Z.eqb_eq, Hwhich. reflexivity.
  - apply Z.eqb_neq. intros Hzero. apply Hwhich in Hzero. discriminate.
Qed.

Lemma FunctionExists_inverted_witness :
  (Invariant ls /\
   (system_with_ls (lit "which " ++ content ls ++ lit " > /dev/null 2>&1") = 0%Z
    <-> true = true)) /\
  FunctionExists system_with_ls ls = false.
Proof.
  assert (HName : Invariant ls) by apply Invariant_String_of_cstr.
  assert (Hwhich : system_with_ls (lit "which " ++ content ls ++ lit " > /dev/null 2>&1") = 0%Z
                   <-> true = true) by (split; reflexivity).
  split; [now split|].
  exact (FunctionExists_inverted system_with_ls ls true HName Hwhich).
Defined.

(** ** The working directory *)

(** C3: [CurrentDirectory] returns an absent result exactly when the read
    of the working directory, [getcwd] into the 1024-byte buffer, fails;
    otherwise the result is present and carries the path of the working
    directory.  The result is the only channel: a value of the optional
    type. *)
Theorem CurrentDirectory_absent_iff_read_fails (cwd : option (list ascii)) :
  (forall path, cwd = Some path -> NulFree path) ->
  (Valid (CurrentDirectory cwd) = false <-> getcwd cwd 1024 = None) /\
  (forall Path, getcwd cwd 1024 = Some Path ->
     exists path, cwd = Some path /\
       CurrentDirectory cwd = Option_Some (String_owning path) /\
       Valid (CurrentDirectory cwd) = true /\
       content (Or (CurrentDirectory cwd) String_empty) = path).
Proof.
  intros Hfree. unfold CurrentDirectory, getcwd.
  destruct cwd as [path|].
  - specialize (Hfree path eq_refl).
    destruct (length path + 1 <=? 1024).
    + unfold String_of_cstr. rewrite (cstring_terminated path nil Hfree).
      split; [split; discriminate|].
      intros Path _. exists path. repeat split.
      unfold Or; simpl. apply content_String_owning.
    + split; [split; reflexivity|]. discriminate.
  - split; [split; reflexivity|]. discriminate.
Qed.

Lemma CurrentDirectory_absent_iff_read_fails_witness :
  (forall path, home_user = Some path -> NulFree path) /\
  ((Valid (CurrentDirectory home_user) = false <-> getcwd home_user 1024 = None) /\
   (forall Path, getcwd home_user 1024 = Some Path ->
      exists path, home_user = Some path /\
        CurrentDirectory home_user = Option_Some (String_owning path) /\
        Valid (CurrentDirectory home_user) = true /\
        content (Or (CurrentDirectory home_user) String_empty) = path)).
Proof.
  assert (Hfree : forall path, home_user = Some path -> NulFree path).
  { intros path [= <-]. unfold NulFree. simpl. intuition discriminate. }
  split; [exact Hfree|].
  exact (CurrentDirectory_absent_iff_read_fails home_user Hfree).
Defined.

(** C10: the buffer of [CurrentDirectory] has 1024 bytes: when the path
    of a readable working directory and its sentinel do not fit, the
    result is absent, and it is the very result returned for a working
    directory that cannot be read. *)
Theorem CurrentDirectory_path_too_long (path : list ascii) :
  1024 < length path + 1 ->
  Valid (CurrentDirectory (Some path)) = false /\
  CurrentDirectory (Some path) = CurrentDirectory None.
Proof.
  intros Hlong. unfold CurrentDirectory, getcwd.
  destruct (Nat.leb_spec (length path + 1) 1024); [lia|].
  split; reflexivity.
Qed.

Lemma CurrentDirectory_path_too_long_witness :
  1024 < length long_path + 1 /\
  (Valid (CurrentDirectory (Some long_path)) = false /\
   CurrentDirectory (Some long_path) = CurrentDirectory None).
Proof.
  assert (Hlong : 1024 < length long_path + 1).
  { unfold long_path. cbn [length]. rewrite repeat_length. lia. }
  split; [exact Hlong|].
  exact (CurrentDirectory_path_too_long long_path Hlong).
Defined.

(** ** Process execution *)

Lemma fgets_read_split (room : nat) (stream : list ascii) :
  fst (fgets_read room stream) ++ snd (fgets_read room stream) = stream.
Proof.
  revert stream; induction room as [|room IH]; intros [|c rest]; simpl; try reflexivity.
  destruct (Ascii.eqb c newline); simpl; [reflexivity|].
  specialize (IH rest). destruct (fgets_read room rest); simpl in *. now f_equal.
Qed.

Lemma fgets_Some (size : nat) (stream C rest : list ascii) :
  fgets size stream = Some (C, rest) ->
  exists line, C = line ++ [NUL] /\ stream = line ++ rest.
Proof.
  unfold fgets. destruct stream as [|c tl]; [discriminate|].
  pose proof (fgets_read_split (size - 1) (c :: tl)) as Hsplit.
  destruct (fgets_read (size - 1) (c :: tl)) as [line rest']; simpl in Hsplit.
  intros [= <- <-]. exists line. now split.
Qed.

Lemma fgets_None (size : nat) (stream : list ascii) :
  fgets size stream = None -> stream = [].
Proof.
  unfold fgets. destruct stream as [|c tl]; [reflexivity|].
  destruct (fgets_read (size - 1) (c :: tl)); discriminate.
Qed.

(** The loop appends the whole stream when the stream holds no sentinel. *)
Lemma Exec_loop_NulFree (Temp : list ascii) (Ret : String) :
  Invariant Ret -> NulFree Temp ->
  Invariant (Exec_loop Temp Ret) /\ content (Exec_loop Temp Ret) = content Ret ++ Temp.
Proof.
  funelim (Exec_loop Temp Ret); intros HRet HTemp.
  - match goal with
    | Hread : fgets 64 _ = Some _ |- _ =>
        destruct (fgets_Some _ _ _ _ Hread) as [line [-> ->]]
    end.
    apply NulFree_app in HTemp. destruct HTemp as [Hline Hrest].
    assert (HC : Invariant (String_of_cstr (line ++ [NUL])))
      by apply Invariant_String_of_cstr.
    match goal with
    | IH : Invariant _ -> NulFree _ -> _ |- _ =>
        destruct (IH (Invariant_Append _ _ HRet HC) Hrest) as [Hinv Hcontent]
    end.
    split; [assumption|].
    rewrite Hcontent, content_Append by assumption.
    unfold String_of_cstr. rewrite (cstring_terminated line nil Hline).
    rewrite content_String_owning. now rewrite app_assoc.
  - split; [assumption|].
    match goal with
    | Hend : fgets 64 _ = None |- _ => rewrite (fgets_None _ _ Hend)
    end.
    now rewrite app_nil_r.
Qed.

(** C6, as the code has it: when the command runs and writes no zero
    byte, [Exec] returns the string of exactly the bytes written to the
    standard output, in order; in particular no output gives the empty
    string. *)
Theorem Exec_captures_NulFree_output
    (popen : list ascii -> option (list ascii)) (Command : String) (out : list ascii) :
  popen (cstring (CStr Command)) = Some out ->
  NulFree out ->
  exists Ret, Exec popen Command = Some Ret /\
    Invariant Ret /\ content Ret = out /\ Len Ret = length out /\
    (out = [] -> Ret = String_empty).
Proof.
  intros Hopen Hfree. unfold Exec. rewrite Hopen.
  exists (Exec_loop out String_empty).
  destruct (Exec_loop_NulFree out String_empty Invariant_String_empty Hfree)
    as [Hinv Hcontent].
  simpl in Hcontent.
  repeat split; try assumption.
  - unfold Len. rewrite <- Hcontent at 2. symmetry. apply (Invariant_content _ Hinv).
  - intros ->. reflexivity.
Qed.

Lemma Exec_captures_NulFree_output_witness :
  popen_echo (cstring (CStr echo_hi)) = Some (lit "hi" ++ [newline]) /\
  NulFree (lit "hi" ++ [newline]) /\
  (exists Ret, Exec popen_echo echo_hi = Some Ret /\
     Invariant Ret /\ content Ret = lit "hi" ++ [newline] /\
     Len Ret = length (lit "hi" ++ [newline]) /\
     (lit "hi" ++ [newline] = [] -> Ret = String_empty)).
Proof.
  assert (Hopen : popen_echo (cstring (CStr echo_hi)) = Some (lit "hi" ++ [newline]))
    by reflexivity.
  assert (Hfree : NulFree (lit "hi" ++ [newline]))
    by (unfold NulFree; simpl; intuition discriminate).
  split; [exact Hopen|]. split; [exact Hfree|].
  exact (Exec_captures_NulFree_output popen_echo echo_hi (lit "hi" ++ [newline]) Hopen Hfree).
Defined.

(** C6, as stated, fails: of the output [A], zero byte, [B] only [A]
    reaches the returned string. *)
Lemma Exec_loses_bytes_after_NUL :
  popen_binary (cstring (CStr dump)) = Some ["A"%char; NUL; "B"%char] /\
  option_map content (Exec popen_binary dump) = Some ["A"%char] /\
  option_map content (Exec popen_binary dump) <> Some ["A"%char; NUL; "B"%char].
Proof.
  split; [reflexivity|]. split; [reflexivity|]. discriminate.
Qed.

(** ** The numeric round trip *)

Lemma scan_digits_app (digit : ascii -> option Z) (radix acc : Z) (l1 l2 : list ascii) :
  scan_digits digit radix acc (l1 ++ l2)
  = match scan_digits digit radix acc l1 with
    | Some acc' => scan_digits digit radix acc' l2
    | None => None
    end.
Proof.
  revert acc. induction l1 as [|c l1 IH]; intros acc; simpl; [reflexivity|].
  destruct (digit c); [apply IH | reflexivity].
Qed.

Lemma dec_digit_digit_char (d : N) :
  (d < 10)%N -> dec_digit (digit_char d) = Some (Z.of_N d).
Proof.
  intros Hd.
  assert (Hcases : (d = 0 \/ d = 1 \/ d = 2 \/ d = 3 \/ d = 4 \/
                    d = 5 \/ d = 6 \/ d = 7 \/ d = 8 \/ d = 9)%N) by lia.
  repeat (destruct Hcases as [->|Hcases]; [reflexivity|]).
  subst d. reflexivity.
Qed.

Lemma scan_render_digits_upto (bits : nat) (n : N) :
  (n < 2 ^ N.of_nat bits)%N ->
  scan_digits dec_digit 10 0 (render_digits_upto bits n) = Some (Z.of_N n).
Proof.
  revert n. induction bits as [|bits IH]; intros n Hn.
  - simpl in *. assert (n = 0%N) by lia. subst n. reflexivity.
  - cbn [render_digits_upto].
    destruct (N.ltb_spec n 10) as [Hsmall|Hbig].
    + cbn [scan_digits]. rewrite dec_digit_digit_char by assumption. f_equal; lia.
    + rewrite scan_digits_app, IH.
      * cbn [scan_digits].
        rewrite dec_digit_digit_char by (apply N.mod_lt; lia).
        f_equal. pose proof (N.div_mod n 10). lia.
      * rewrite Nat2N.inj_succ, N.pow_succ_r' in Hn.
        apply N.Div0.div_lt_upper_bound.
        pose proof (N.pow_nonzero 2 (N.of_nat bits)). lia.
Qed.

Lemma render_digits_upto_nonempty (bits : nat) (n : N) :
  render_digits_upto bits n <> [].
Proof.
  destruct bits; simpl; [discriminate|].
  destruct (n <? 10)%N; [discriminate|].
  destruct (render_digits_upto bits (n / 10)); discriminate.
Qed.

Lemma N_lt_pow2_size_nat (n : N) : (n < 2 ^ N.of_nat (N.size_nat n))%N.
Proof.
  destruct n as [|p]; [reflexivity|]. simpl N.size_nat.
  induction p as [p IH|p IH|]; cbn [Pos.size_nat];
    rewrite ?Nat2N.inj_succ, ?N.pow_succ_r'; lia.
Qed.

Lemma scan_number_render_digits (n : N) :
  scan_number dec_digit 10 (render_digits n) = Some (Z.of_N n).
Proof.
  unfold scan_number, render_digits.
  pose proof (render_digits_upto_nonempty (N.size_nat n) n) as Hne.
  pose proof (scan_render_digits_upto (N.size_nat n) n) as Hscan.
  destruct (render_digits_upto (N.size_nat n) n); [congruence|].
  apply Hscan, N_lt_pow2_size_nat.
Qed.

Lemma IsNum_not_sign (c : ascii) :
  IsNum c = true -> Ascii.eqb c "-" = false /\ Ascii.eqb c "+" = false.
Proof.
  intros Hnum. split.
  - destruct (Ascii.eqb_spec c "-") as [->|_]; [discriminate Hnum | reflexivity].
  - destruct (Ascii.eqb_spec c "+") as [->|_]; [discriminate Hnum | reflexivity].
Qed.

Lemma ParseInt_chars_render_digits (n : N) :
  ParseInt_chars (render_digits n) = Some (Z.of_N n).
Proof.
  pose proof (scan_number_render_digits n) as Hscan.
  unfold ParseInt_chars.
  destruct (render_digits n) as [|c rest]; [discriminate Hscan|].
  assert (Hnum : IsNum c = true).
  { simpl in Hscan. unfold dec_digit in Hscan. destruct (IsNum c); [reflexivity | discriminate]. }
  destruct (IsNum_not_sign c Hnum) as [-> ->]. exact Hscan.
Qed.

Lemma to_I64_in_range (n : Z) : (I64_MIN <= n <= I64_MAX)%Z -> to_I64 n = n.
Proof.
  unfold I64_MIN, I64_MAX, to_I64. intros Hn.
  rewrite Z.mod_small; lia.
Qed.

Example ParseInt_123 :
  ParseInt (String_of_cstr (lit "123")) = Option_Some 123%Z /\
  Valid (ParseInt (String_of_cstr (lit "12x"))) = false.
Proof. split; reflexivity. Qed.

Example ToString_negative : content (ToString (-1250)) = lit "-1250".
Proof. reflexivity. Qed.

(** C7: for every [n] in the range of [I64], [ParseInt(ToString(n))] is
    present and carries exactly [n]. *)
Theorem ParseInt_ToString (n : Z) :
  (I64_MIN <= n <= I64_MAX)%Z ->
  ParseInt (ToString n) = Option_Some n /\
  Valid (ParseInt (ToString n)) = true.
Proof.
  intros Hn.
  assert (Hparse : ParseInt_chars (content (ToString n)) = Some n).
  { unfold ToString. rewrite content_String_owning.
    destruct (Z.ltb_spec n 0) as [Hneg|Hpos].
    - unfold ParseInt_chars. cbn [Ascii.eqb Bool.eqb].
      rewrite scan_number_render_digits. simpl. f_equal. lia.
    - rewrite ParseInt_chars_render_digits. f_equal. lia. }
  unfold ParseInt. rewrite Hparse. simpl.
  rewrite to_I64_in_range by assumption. split; reflexivity.
Qed.

Lemma ParseInt_ToString_witness :
  (I64_MIN <= I64_MIN <= I64_MAX)%Z /\
  (ParseInt (ToString I64_MIN) = Option_Some I64_MIN /\
   Valid (ParseInt (ToString I64_MIN)) = true).
Proof.
  assert (Hn : (I64_MIN <= I64_MIN <= I64_MAX)%Z) by (unfold I64_MIN, I64_MAX; lia).
  split; [exact Hn|].
  exact (ParseInt_ToString I64_MIN Hn).
Defined.

(** ** Malformed input *)

Lemma Valid_Option_of {T : Type} (uninit : T) (r : option T) :
  Valid (Option_of uninit r) = match r with Some _ => true | None => false end.
Proof. destruct r; reflexivity. Qed.

Lemma scan_digits_Some (digit : ascii -> option Z) (radix acc : Z) (cs : list ascii) (v : Z) :
  scan_digits digit radix acc cs = Some v ->
  Forall (fun c => digit c <> None) cs.
Proof.
  revert acc. induction cs as [|c cs IH]; intros acc; simpl; [constructor|].
  destruct (digit c) as [d|] eqn:Hd; [|discriminate].
  intros Hscan. constructor; [congruence | eauto].
Qed.

Lemma scan_number_Some (digit : ascii -> option Z) (radix : Z) (cs : list ascii) (v : Z) :
  scan_number digit radix cs = Some v ->
  cs <> [] /\ Forall (fun c => digit c <> None) cs.
Proof.
  destruct cs as [|c cs]; [discriminate|].
  intros Hscan. split; [discriminate|].
  now apply scan_digits_Some in Hscan.
Qed.

Lemma scan_float_Some (m : Z) (sc : nat) (seen_point seen_digit : bool)
    (cs : list ascii) (d : Decimal) :
  scan_float m sc seen_point seen_digit cs = Some d ->
  Forall (fun c => IsNum c || Ascii.eqb c "." = true) cs.
Proof.
  revert m sc seen_point seen_digit.
  induction cs as [|c cs IH]; intros m sc seen_point seen_digit; simpl; [constructor|].
  destruct (IsNum c) eqn:Hnum.
  - intros Hscan. constructor; [now rewrite Hnum | eauto].
  - destruct (Ascii.eqb c ".") eqn:Hpoint; [|discriminate].
    destruct seen_point; [discriminate|].
    intros Hscan. constructor; [now rewrite Hnum, Hpoint | eauto].
Qed.

Lemma option_map_Some {A B : Type} (f : A -> B) (r : option A) :
  match option_map f r with Some _ => true | None => false end
  = match r with Some _ => true | None => false end.
Proof. destruct r; reflexivity. Qed.

(** A lexer that hands back a present result has read a non-empty text
    written with the bytes of its grammar only. *)
Lemma parses_in_grammar (p : Lexer) (Text : String) :
  parses p Text = true ->
  content Text <> [] /\ Forall (fun c => in_grammar p c = true) (content Text).
Proof.
  destruct p; unfold parses, ParseInt, ParseBits, ParseHex, ParseFloat, ParseBool;
    rewrite Valid_Option_of; generalize (content Text) as cs; intros cs.
  - (* ParseInt *)
    rewrite option_map_Some. unfold ParseInt_chars.
    destruct cs as [|c rest]; [discriminate|].
    intros Hvalid. split; [discriminate|].
    assert (Hdigits : forall l, Forall (fun c => dec_digit c <> None) l ->
                                Forall (fun c => in_grammar LexInt c = true) l).
    { intros l. apply Forall_impl. intros a. unfold dec_digit. simpl.
      destruct (IsNum a); [reflexivity | congruence]. }
    destruct (Ascii.eqb c "-") eqn:Hminus; [|destruct (Ascii.eqb c "+") eqn:Hplus].
    + rewrite option_map_Some in Hvalid.
      destruct (scan_number dec_digit 10 rest) as [v|] eqn:Hscan; [|discriminate].
      apply scan_number_Some in Hscan. constructor; [|apply Hdigits, Hscan].
      simpl. unfold is_sign. rewrite Hminus. apply orb_true_r.
    + destruct (scan_number dec_digit 10 rest) as [v|] eqn:Hscan; [|discriminate].
      apply scan_number_Some in Hscan. constructor; [|apply Hdigits, Hscan].
      simpl. unfold is_sign. rewrite Hplus. rewrite !orb_true_r. reflexivity.
    + destruct (scan_number dec_digit 10 (c :: rest)) as [v|] eqn:Hscan; [|discriminate].
      apply scan_number_Some in Hscan. apply Hdigits, Hscan.
  - (* ParseBits *)
    rewrite option_map_Some.
    destruct (scan_number bit_digit 2 cs) as [v|] eqn:Hscan; [|discriminate].
    intros _. apply scan_number_Some in Hscan. destruct Hscan as [Hne Hall].
    split; [assumption|]. revert Hall. apply Forall_impl.
    intros a. unfold bit_digit. simpl.
    destruct (Ascii.eqb a "0"); [reflexivity|].
    destruct (Ascii.eqb a "1"); [reflexivity | congruence].
  - (* ParseHex *)
    rewrite option_map_Some.
    destruct (scan_number hex_digit 16 cs) as [v|] eqn:Hscan; [|discriminate].
    intros _. apply scan_number_Some in Hscan. destruct Hscan as [Hne Hall].
    split; [assumption|]. revert Hall. apply Forall_impl.
    intros a. simpl. destruct (hex_digit a); [reflexivity | congruence].
  - (* ParseFloat *)
    unfold ParseFloat_chars.
    destruct cs as [|c rest]; [discriminate|].
    intros Hvalid. split; [discriminate|].
    assert (Hrun : forall l, Forall (fun c => IsNum c || Ascii.eqb c "." = true) l ->
                             Forall (fun c => in_grammar LexFloat c = true) l).
    { intros l. apply Forall_impl. intros a. simpl.
      destruct (IsNum a); [reflexivity|]. simpl. intros ->. apply orb_true_r. }
    destruct (Ascii.eqb c "-") eqn:Hminus; [|destruct (Ascii.eqb c "+") eqn:Hplus].
    + rewrite option_map_Some in Hvalid.
      destruct (scan_float 0 0 false false rest) as [d|] eqn:Hscan; [|discriminate].
      apply scan_float_Some in Hscan. constructor; [|apply Hrun, Hscan].
      simpl. unfold is_sign. rewrite Hminus. rewrite !orb_true_r. reflexivity.
    + destruct (scan_float 0 0 false false rest) as [d|] eqn:Hscan; [|discriminate].
      apply scan_float_Some in Hscan. constructor; [|apply Hrun, Hscan].
      simpl. unfold is_sign. rewrite Hplus. rewrite !orb_true_r. reflexivity.
    + destruct (scan_float 0 0 false false (c :: rest)) as [d|] eqn:Hscan; [|discriminate].
      apply scan_float_Some in Hscan. apply Hrun, Hscan.
  - (* ParseBool *)
    destruct (list_eq_dec ascii_dec cs (lit "true")) as [->|_].
    + intros _. split; [discriminate|]. repeat constructor.
    + destruct (list_eq_dec ascii_dec cs (lit "false")) as [->|_]; [|discriminate].
      intros _. split; [discriminate|]. repeat constructor.
Qed.

Example ParseHex_12A :
  ParseHex (String_of_cstr (lit "12A")) = Option_Some 298%Z.
Proof. reflexivity. Qed.

(** C8: every lexer ([ParseInt], [ParseBits], [ParseHex], [ParseFloat],
    [ParseBool]) returns an absent result on the empty text and on a text
    that holds, at any position, a byte outside its grammar; in particular
    ["12a"], the empty text and ["--3"] are absent from every one of
    them. *)
Theorem lexers_reject_malformed :
  (forall (p : Lexer) (Text : String),
     content Text = [] \/ (exists c, In c (content Text) /\ in_grammar p c = false) ->
     parses p Text = false) /\
  (forall p : Lexer,
     parses p (String_of_cstr (lit "12a")) = false /\
     parses p (String_of_cstr (lit "")) = false /\
     parses p (String_of_cstr (lit "--3")) = false).
Proof.
  split.
  - intros p Text Hbad.
    destruct (parses p Text) eqn:Hparses; [exfalso | reflexivity].
    apply parses_in_grammar in Hparses. destruct Hparses as [Hne Hall].
    destruct Hbad as [Hnil|[c [Hin Hout]]]; [contradiction|].
    rewrite Forall_forall in Hall. specialize (Hall c Hin). congruence.
  - intros p. destruct p; repeat split; reflexivity.
Qed.

Lemma lexers_reject_malformed_witness :
  (content (String_of_cstr (lit "12x")) = [] \/
   (exists c, In c (content (String_of_cstr (lit "12x"))) /\ in_grammar LexHex c = false)) /\
  parses LexHex (String_of_cstr (lit "12x")) = false.
Proof.
  assert (Hbad : content (String_of_cstr (lit "12x")) = [] \/
                 (exists c, In c (content (String_of_cstr (lit "12x"))) /\
                            in_grammar LexHex c = false)).
  { right. exists "x"%char. split; [simpl; tauto | reflexivity]. }
  split; [exact Hbad|].
  exact (proj1 lexers_reject_malformed LexHex (String_of_cstr (lit "12x")) Hbad).
Defined.

(** * Further properties of the system queries *)

(** ** What a reader of a buffer sees *)

Lemma cstring_app_NulFree (l1 l2 : list ascii) :
  NulFree l1 -> cstring (l1 ++ l2) = l1 ++ cstring l2.
Proof.
  unfold NulFree. induction l1 as [|c l1 IH]; simpl; intros Hfree; [reflexivity|].
  destruct (Ascii.eqb_spec c NUL) as [->|_].
  - exfalso. apply Hfree. now left.
  - f_equal. apply IH. intros Hin. apply Hfree. now right.
Qed.

Lemma cstring_app_In (l1 l2 : list ascii) :
  In NUL l1 -> cstring (l1 ++ l2) = cstring l1.
Proof.
  induction l1 as [|c l1 IH]; simpl; [tauto|].
  destruct (Ascii.eqb_spec c NUL) as [->|Hc]; [reflexivity|].
  intros [Heq|Hin]; [congruence|]. f_equal. now apply IH.
Qed.

Lemma cstring_length_In (l : list ascii) :
  In NUL l -> length (cstring l) < length l.
Proof.
  induction l as [|c l IH]; simpl; [tauto|].
  destruct (Ascii.eqb_spec c NUL) as [->|Hc]; simpl; [lia|].
  intros [Heq|Hin]; [congruence|]. apply IH in Hin. lia.
Qed.

Lemma NulFree_dec (l : list ascii) : {NulFree l} + {In NUL l}.
Proof.
  destruct (in_dec ascii_dec NUL l) as [Hin|Hout]; [now right | now left].
Qed.

(** One read of the loop: the bytes it appends are the bytes of the chunk
    before its first zero byte. *)
Lemma chunk_view (line rest : list ascii) :
  (NulFree line /\ cstring (line ++ [NUL]) = line /\
   cstring (line ++ rest) = line ++ cstring rest) \/
  (In NUL line /\ cstring (line ++ [NUL]) = cstring line /\
   cstring (line ++ rest) = cstring line /\ length (cstring line) < length line).
Proof.
  destruct (NulFree_dec line) as [Hfree|Hin]; [left | right].
  - repeat split; [assumption | now apply cstring_terminated | now apply cstring_app_NulFree].
  - repeat split; [assumption | now apply cstring_app_In | now apply cstring_app_In
                   | now apply cstring_length_In].
Qed.

(** ** The loop of [Exec] on an arbitrary stream *)

Lemma Exec_loop_step (Temp : list ascii) (Ret : String) :
  Exec_loop Temp Ret
  = match fgets 64 Temp with
    | Some (C, Temp') => Exec_loop Temp' (Append Ret (String_of_cstr C))
    | None => Ret
    end.
Proof.
  funelim (Exec_loop Temp Ret);
    match goal with
    | Hread : fgets 64 _ = _ |- _ => rewrite Hread
    end; reflexivity.
Qed.

Lemma Exec_loop_general (Temp : list ascii) (Ret : String) :
  Invariant Ret ->
  Invariant (Exec_loop Temp Ret) /\
  exists extra,
    content (Exec_loop Temp Ret) = content Ret ++ extra /\
    length extra <= length Temp /\
    (length extra = length Temp -> NulFree Temp) /\
    exists tail, extra = cstring Temp ++ tail.
Proof.
  remember (length Temp) as n eqn:Hn.
  revert Temp Hn Ret. induction n as [n IH] using lt_wf_ind.
  intros Temp Hn Ret HRet. subst n. rewrite Exec_loop_step.
  destruct (fgets 64 Temp) as [[C Temp']|] eqn:Hread.
  - assert (Hless : length Temp' < length Temp)
      by (eapply fgets_consumes; [|exact Hread]; lia).
    destruct (fgets_Some _ _ _ _ Hread) as [line [-> HTemp]].
    assert (HC : Invariant (String_of_cstr (line ++ [NUL])))
      by apply Invariant_String_of_cstr.
    assert (HRet' : Invariant (Append Ret (String_of_cstr (line ++ [NUL]))))
      by now apply Invariant_Append.
    destruct (IH (length Temp') Hless Temp' eq_refl _ HRet')
      as [Hinv [extra [Hcontent [Hle [Hfull [tail Htail]]]]]].
    split; [assumption|].
    exists (cstring (line ++ [NUL]) ++ extra).
    rewrite Hcontent, content_Append by assumption.
    unfold String_of_cstr at 1. rewrite content_String_owning.
    rewrite HTemp, length_app, length_app.
    split; [now rewrite app_assoc|].
    destruct (chunk_view line Temp') as [[Hfree [Hview Hwhole]]|[Hin [Hview [Hwhole Hshort]]]];
      rewrite Hview, Hwhole.
    + split; [lia|]. split.
      * intros Hlen. apply NulFree_app. split; [assumption|]. apply Hfull. lia.
      * exists tail. rewrite Htail. now rewrite app_assoc.
    + split; [lia|]. split; [intros Hlen; lia|].
      exists extra. reflexivity.
  - rewrite (fgets_None _ _ Hread).
    split; [assumption|]. exists []. rewrite app_nil_r. simpl.
    repeat split; try lia.
    + intros _. unfold NulFree. simpl. tauto.
    + exists []. reflexivity.
Qed.

(** What the loop appends does not depend on what is already there. *)
Lemma Exec_loop_appends (Temp : list ascii) (Ret : String) :
  Invariant Ret ->
  content (Exec_loop Temp Ret) = content Ret ++ content (Exec_loop Temp String_empty).
Proof.
  remember (length Temp) as n eqn:Hn.
  revert Temp Hn Ret. induction n as [n IH] using lt_wf_ind.
  intros Temp Hn Ret HRet. subst n.
  rewrite (Exec_loop_step Temp Ret), (Exec_loop_step Temp String_empty).
  destruct (fgets 64 Temp) as [[C Temp']|] eqn:Hread.
  - assert (Hless : length Temp' < length Temp)
      by (eapply fgets_consumes; [|exact Hread]; lia).
    assert (HC : Invariant (String_of_cstr C)) by apply Invariant_String_of_cstr.
    rewrite (IH (length Temp') Hless Temp' eq_refl (Append Ret (String_of_cstr C)))
      by now apply Invariant_Append.
    rewrite (IH (length Temp') Hless Temp' eq_refl (Append String_empty (String_of_cstr C)))
      by (apply Invariant_Append; [apply Invariant_String_empty | assumption]).
    rewrite !content_Append by (try assumption; apply Invariant_String_empty).
    simpl. now rewrite app_assoc.
  - simpl. now rewrite app_nil_r.
Qed.

(** A line that leaves room for its newline in the 64-byte buffer is read
    in one piece. *)
Lemma fgets_line (line rest : list ascii) :
  ~ In newline line -> length line <= 62 ->
  fgets 64 (line ++ newline :: rest) = Some ((line ++ [newline]) ++ [NUL], rest).
Proof.
  intros Hline Hshort.
  assert (Hread : forall room l, ~ In newline l -> length l < room ->
            fgets_read room (l ++ newline :: rest) = (l ++ [newline], rest)).
  { induction room as [|room IHroom]; intros l Hl Hroom; [lia|].
    destruct l as [|c l]; simpl.
    - reflexivity.
    - destruct (Ascii.eqb_spec c newline) as [->|_].
      + exfalso. apply Hl. now left.
      + rewrite IHroom; [reflexivity | | simpl in Hroom; lia].
        intros Hin. apply Hl. now right. }
  unfold fgets. specialize (Hread (64 - 1) line Hline ltac:(simpl; lia)).
  destruct (line ++ newline :: rest) eqn:Hstream.
  - destruct line; discriminate.
  - now rewrite Hread.
Qed.

(** ** Process execution on any output *)

(** X2: [Exec] never returns more bytes than the command wrote, and it
    returns as many exactly when the output holds no zero byte. *)
Theorem Exec_Len_bound
    (popen : list ascii -> option (list ascii)) (Command : String) (out : list ascii) :
  popen (cstring (CStr Command)) = Some out ->
  exists Ret, Exec popen Command = Some Ret /\
    Len Ret <= length out /\ (Len Ret = length out <-> NulFree out).
Proof.
  intros Hopen. unfold Exec. rewrite Hopen.
  exists (Exec_loop out String_empty). split; [reflexivity|].
  destruct (Exec_loop_general out String_empty Invariant_String_empty)
    as [Hinv [extra [Hcontent [Hle [Hfull _]]]]].
  simpl in Hcontent.
  assert (Hlen : Len (Exec_loop out String_empty) = length extra).
  { unfold Len. rewrite <- Hcontent. symmetry. apply (Invariant_content _ Hinv). }
  rewrite Hlen. split; [assumption|]. split; [assumption|].
  intros Hfree.
  destruct (Exec_loop_NulFree out String_empty Invariant_String_empty Hfree)
    as [_ Hwhole].
  simpl in Hwhole. congruence.
Qed.

Lemma Exec_Len_bound_witness :
  popen_binary (cstring (CStr dump)) = Some ["A"%char; NUL; "B"%char] /\
  (exists Ret, Exec popen_binary dump = Some Ret /\
     Len Ret <= length ["A"%char; NUL; "B"%char] /\
     (Len Ret = length ["A"%char; NUL; "B"%char] <-> NulFree ["A"%char; NUL; "B"%char])).
Proof.
  assert (Hopen : popen_binary (cstring (CStr dump)) = Some ["A"%char; NUL; "B"%char])
    by reflexivity.
  split; [exact Hopen|].
  exact (Exec_Len_bound popen_binary dump ["A"%char; NUL; "B"%char] Hopen).
Defined.

(** X3: The bytes the command wrote before its first zero byte are never
    lost: the returned content starts with them. *)
Theorem Exec_keeps_bytes_before_NUL
    (popen : list ascii -> option (list ascii)) (Command : String) (out : list ascii) :
  popen (cstring (CStr Command)) = Some out ->
  exists Ret tail, Exec popen Command = Some Ret /\ content Ret = cstring out ++ tail.
Proof.
  intros Hopen. unfold Exec. rewrite Hopen.
  destruct (Exec_loop_general out String_empty Invariant_String_empty)
    as [_ [extra [Hcontent [_ [_ [tail Htail]]]]]].
  exists (Exec_loop out String_empty), tail. split; [reflexivity|].
  rewrite Hcontent, Htail. reflexivity.
Qed.

Lemma Exec_keeps_bytes_before_NUL_witness :
  popen_binary (cstring (CStr dump)) = Some ["A"%char; NUL; "B"%char] /\
  (exists Ret tail, Exec popen_binary dump = Some Ret /\
     content Ret = cstring ["A"%char; NUL; "B"%char] ++ tail).
Proof.
  assert (Hopen : popen_binary (cstring (CStr dump)) = Some ["A"%char; NUL; "B"%char])
    by reflexivity.
  split; [exact Hopen|].
  exact (Exec_keeps_bytes_before_NUL popen_binary dump ["A"%char; NUL; "B"%char] Hopen).
Defined.

(** X4: Lines are captured one after the other: when the output starts with
    a line of at most 62 bytes and its newline, [Exec] returns the bytes
    of that line before its first zero byte (the whole line and the
    newline when it has none), followed by what it returns for the rest
    of the output. *)
Theorem Exec_line_by_line
    (popen : list ascii -> option (list ascii)) (First Rest : String)
    (line rest : list ascii) :
  popen (cstring (CStr First)) = Some (line ++ newline :: rest) ->
  popen (cstring (CStr Rest)) = Some rest ->
  ~ In newline line ->
  length line <= 62 ->
  exists Ret1 Ret2,
    Exec popen First = Some Ret1 /\ Exec popen Rest = Some Ret2 /\
    content Ret1 = cstring ((line ++ [newline]) ++ [NUL]) ++ content Ret2.
Proof.
  intros Hfirst Hrest Hline Hshort. unfold Exec. rewrite Hfirst, Hrest.
  exists (Exec_loop (line ++ newline :: rest) String_empty), (Exec_loop rest String_empty).
  split; [reflexivity|]. split; [reflexivity|].
  rewrite (Exec_loop_step (line ++ newline :: rest)), (fgets_line line rest Hline Hshort).
  rewrite Exec_loop_appends
    by (apply Invariant_Append;
        [apply Invariant_String_empty | apply Invariant_String_of_cstr]).
  rewrite content_Append
    by (try apply Invariant_String_empty; apply Invariant_String_of_cstr).
  unfold String_of_cstr. rewrite content_String_owning. reflexivity.
Qed.

Lemma Exec_line_by_line_witness :
  (popen_lines (cstring (CStr print_a_b)) = Some (lit "a" ++ newline :: lit "b") /\
   popen_lines (cstring (CStr print_b)) = Some (lit "b") /\
   ~ In newline (lit "a") /\
   length (lit "a") <= 62) /\
  (exists Ret1 Ret2,
     Exec popen_lines print_a_b = Some Ret1 /\ Exec popen_lines print_b = Some Ret2 /\
     content Ret1 = cstring ((lit "a" ++ [newline]) ++ [NUL]) ++ content Ret2).
Proof.
  assert (Hfirst : popen_lines (cstring (CStr print_a_b))
                   = Some (lit "a" ++ newline :: lit "b")) by reflexivity.
  assert (Hrest : popen_lines (cstring (CStr print_b)) = Some (lit "b")) by reflexivity.
  assert (Hline : ~ In newline (lit "a")) by (simpl; intuition discriminate).
  assert (Hshort : length (lit "a") <= 62) by (simpl; lia).
  split; [now repeat split|].
  exact (Exec_line_by_line popen_lines print_a_b print_b (lit "a") (lit "b")
           Hfirst Hrest Hline Hshort).
Defined.

(** ** The working directory, again *)

(** X5: [CurrentDirectory] returns a present result exactly when the working
    directory can be read and its path has at most 1023 bytes. *)
Theorem CurrentDirectory_present_iff (cwd : option (list ascii)) :
  Valid (CurrentDirectory cwd) = true <->
  exists path, cwd = Some path /\ length path <= 1023.
Proof.
  unfold CurrentDirectory, getcwd. destruct cwd as [path|].
  - destruct (Nat.leb_spec (length path + 1) 1024) as [Hfit|Hlong]; simpl.
    + split; [|reflexivity]. intros _. exists path. split; [reflexivity | lia].
    + split; [discriminate|]. intros [path' [[= <-] Hfit]]. lia.
  - simpl. split; [discriminate|]. intros [path [Hsome _]]. discriminate.
Qed.

(** X6: A present result carries a string that keeps the invariant of the
    data model and has at most 1023 bytes, whatever bytes the path is
    made of. *)
Theorem CurrentDirectory_present_bounded (cwd : option (list ascii)) (Other : String) :
  Valid (CurrentDirectory cwd) = true ->
  Invariant (Or (CurrentDirectory cwd) Other) /\
  Len (Or (CurrentDirectory cwd) Other) <= 1023.
Proof.
  unfold CurrentDirectory, getcwd. destruct cwd as [path|]; [|discriminate].
  destruct (Nat.leb_spec (length path + 1) 1024) as [Hfit|Hlong]; [|discriminate].
  intros _. unfold Or. simpl. split; [apply Invariant_String_of_cstr|].
  destruct (chunk_view path []) as [[_ [Hview _]]|[Hin [Hview [_ Hshort]]]];
    rewrite Hview; lia.
Qed.

Lemma CurrentDirectory_present_bounded_witness :
  Valid (CurrentDirectory home_user) = true /\
  (Invariant (Or (CurrentDirectory home_user) String_empty) /\
   Len (Or (CurrentDirectory home_user) String_empty) <= 1023).
Proof.
  assert (Hvalid : Valid (CurrentDirectory home_user) = true) by reflexivity.
  split; [exact Hvalid|].
  exact (CurrentDirectory_present_bounded home_user String_empty Hvalid).
Defined.

(** X7: [CurrentDirectory().Or(Other)] is [Other] when the working directory
    cannot be read or its path has more than 1023 bytes, and the string of
    the path otherwise. *)
Theorem CurrentDirectory_Or (cwd : option (list ascii)) (Other : String) :
  (forall path, cwd = Some path -> NulFree path) ->
  (cwd = None \/ (exists path, cwd = Some path /\ 1023 < length path) ->
   Or (CurrentDirectory cwd) Other = Other) /\
  (forall path, cwd = Some path -> length path <= 1023 ->
   Or (CurrentDirectory cwd) Other = String_owning path /\
   content (Or (CurrentDirectory cwd) Other) = path).
Proof.
  intros Hfree. unfold CurrentDirectory, getcwd. split.
  - intros [->|[path [-> Hlong]]]; [reflexivity|].
    destruct (Nat.leb_spec (length path + 1) 1024); [lia | reflexivity].
  - intros path -> Hfit. specialize (Hfree path eq_refl).
    destruct (Nat.leb_spec (length path + 1) 1024); [|lia].
    unfold Or, String_of_cstr. simpl.
    rewrite (cstring_terminated path nil Hfree).
    split; [reflexivity | apply content_String_owning].
Qed.

Lemma CurrentDirectory_Or_witness :
  (forall path, home_user = Some path -> NulFree path) /\
  ((home_user = None \/ (exists path, home_user = Some path /\ 1023 < length path) ->
    Or (CurrentDirectory home_user) String_empty = String_empty) /\
   (forall path, home_user = Some path -> length path <= 1023 ->
    Or (CurrentDirectory home_user) String_empty = String_owning path /\
    content (Or (CurrentDirectory home_user) String_empty) = path)).
Proof.
  assert (Hfree : forall path, home_user = Some path -> NulFree path).
  { intros path [= <-]. unfold NulFree. simpl. intuition discriminate. }
  split; [exact Hfree|].
  exact (CurrentDirectory_Or home_user String_empty Hfree).
Defined.

(** ** Memory and cores *)

(** X8: Without [OS_WINDOWS], [TotalRam] never reports 4 GiB or more,
    whatever [sysconf] answers. *)
Theorem TotalRam_Posix_below_4GiB (sysconf : sysconf_name -> Z) :
  (0 <= TotalRam (Posix sysconf) < 2 ^ 32)%Z.
Proof.
  rewrite TotalRam_Posix. apply Z.mod_pos_bound. lia.
Qed.

(** X9: For a page count and a page size that are not negative, [TotalRam]
    returns their product exactly when the product is below [2 ^ 32]. *)
Theorem TotalRam_exact_iff_fits (sysconf : sysconf_name -> Z) :
  (0 <= sysconf _SC_PHYS_PAGES)%Z ->
  (0 <= sysconf _SC_PAGE_SIZE)%Z ->
  TotalRam (Posix sysconf) = (sysconf _SC_PHYS_PAGES * sysconf _SC_PAGE_SIZE)%Z
  <-> (sysconf _SC_PHYS_PAGES * sysconf _SC_PAGE_SIZE < 2 ^ 32)%Z.
Proof.
  intros Hpages Hsize. split.
  - intros Heq. rewrite <- Heq, TotalRam_Posix. apply Z.mod_pos_bound. lia.
  - intros Hfit. apply TotalRam_exact_below_4GiB. split; [|assumption].
    now apply Z.mul_nonneg_nonneg.
Qed.

Lemma TotalRam_exact_iff_fits_witness :
  (0 <= sysconf_1GiB _SC_PHYS_PAGES)%Z /\
  (0 <= sysconf_1GiB _SC_PAGE_SIZE)%Z /\
  (TotalRam (Posix sysconf_1GiB)
   = (sysconf_1GiB _SC_PHYS_PAGES * sysconf_1GiB _SC_PAGE_SIZE)%Z
   <-> (sysconf_1GiB _SC_PHYS_PAGES * sysconf_1GiB _SC_PAGE_SIZE < 2 ^ 32)%Z).
Proof.
  assert (Hpages : (0 <= sysconf_1GiB _SC_PHYS_PAGES)%Z) by (simpl; lia).
  assert (Hsize : (0 <= sysconf_1GiB _SC_PAGE_SIZE)%Z) by (simpl; lia).
  split; [exact Hpages|]. split; [exact Hsize|].
  exact (TotalRam_exact_iff_fits sysconf_1GiB Hpages Hsize).
Defined.

(** X10: [CoreCount] returns the answer of [sysconf] when it fits a [U32]; it
    is never negative, and the failure answer [-1] comes back as
    [4294967295] cores. *)
Theorem CoreCount_range_and_failure (sysconf : sysconf_name -> Z) :
  (0 <= CoreCount sysconf < 2 ^ 32)%Z /\
  ((0 <= sysconf _SC_NPROCESSORS_ONLN < 2 ^ 32)%Z ->
   CoreCount sysconf = sysconf _SC_NPROCESSORS_ONLN) /\
  (sysconf _SC_NPROCESSORS_ONLN = (-1)%Z -> CoreCount sysconf = 4294967295%Z).
Proof.
  unfold CoreCount, to_U32. split; [apply Z.mod_pos_bound; lia|]. split.
  - intros Hfit. now apply Z.mod_small.
  - intros ->. reflexivity.
Qed.

Lemma CoreCount_range_and_failure_witness :
  (0 <= sysconf_1GiB _SC_NPROCESSORS_ONLN < 2 ^ 32)%Z /\
  CoreCount sysconf_1GiB = sysconf_1GiB _SC_NPROCESSORS_ONLN.
Proof.
  assert (Hfit : (0 <= sysconf_1GiB _SC_NPROCESSORS_ONLN < 2 ^ 32)%Z) by (simpl; lia).
  split; [exact Hfit|].
  exact (proj1 (proj2 (CoreCount_range_and_failure sysconf_1GiB)) Hfit).
Defined.

(** ** The command line of [FunctionExists] *)

(** X11: [FunctionExists] splices the name, byte for byte and unquoted, into
    one command line, and answers [true] exactly when [system] returns
    anything but zero for it: a missing command, but also a failure of
    [system] itself. *)
Theorem FunctionExists_true_iff_nonzero_status
    (system : list ascii -> Z) (Name : String) :
  Invariant Name ->
  FunctionExists system Name = true <->
  system (lit "which " ++ content Name ++ lit " > /dev/null 2>&1") <> 0%Z.
Proof.
  intros HName. rewrite FunctionExists_command by assumption.
  unfold bool_of_int. rewrite negb_true_iff. apply Z.eqb_neq.
Qed.

Lemma FunctionExists_true_iff_nonzero_status_witness :
  Invariant ls /\
  (FunctionExists system_with_ls ls = true <->
   system_with_ls (lit "which " ++ content ls ++ lit " > /dev/null 2>&1") <> 0%Z).
Proof.
  assert (HName : Invariant ls) by apply Invariant_String_of_cstr.
  split; [exact HName|].
  exact (FunctionExists_true_iff_nonzero_status system_with_ls ls HName).
Defined.

End Cthulhu.
